(** * Album registry: a shallow embedding of the Gin album service

    The service keeps one package-level slice [albums] and exposes it through
    six HTTP handlers.  Each handler is embedded as a function from the
    request context and the current slice to the new slice and the response
    the handler wrote (if any).  The embedding follows the full variant of the
    program (create, read, patch, put, delete); the minimal variant has the
    same [getAlbums], [postAlbums] and [getAlbumByID]. *)

From Stdlib Require Import ZArith.
From Stdlib.Floats Require Import PrimFloat.
From stdpp Require Import base list strings.

Set Warnings "-inexact-float".
Local Open Scope string_scope.
Local Open Scope Z_scope.
Local Open Scope list_scope.

(** ** Data model *)

(** [type album struct]: three Go strings and a float64. *)
Record album : Type := Album {
  ID : string;
  Title : string;
  Artist : string;
  Price : float
}.

(** Field assignments [albums[i].Title = v], [albums[i].Artist = v] and
    [albums[i].Price = v]. *)
Definition set_Title (v : string) (a : album) : album :=
  {| ID := ID a; Title := v; Artist := Artist a; Price := Price a |}.

Definition set_Artist (v : string) (a : album) : album :=
  {| ID := ID a; Title := Title a; Artist := v; Price := Price a |}.

Definition set_Price (v : float) (a : album) : album :=
  {| ID := ID a; Title := Title a; Artist := Artist a; Price := v |}.

(** The seeded package-level slice. *)
Definition albums0 : list album :=
  [ {| ID := "1"; Title := "Blue Train"; Artist := "John Coltrane";
       Price := 56.99%float |};
    {| ID := "2"; Title := "Jeru"; Artist := "Gerry Mulligan";
       Price := 17.99%float |};
    {| ID := "3"; Title := "Sarah Vaughan and Clifford Brown";
       Artist := "Sarah Vaughan"; Price := 39.99%float |} ].

(** ** The framework's request context, as far as the handlers use it *)

(** What a handler hands to [c.IndentedJSON]: one album, the whole slice, or a
    [gin.H] object, here a list of key and value pairs. *)
Inductive JSON : Type :=
  | JAlbum (a : album)
  | JAlbums (l : list album)
  | H (fields : list (string * string)).

Record Response : Type := IndentedJSON { code : Z; obj : JSON }.

Definition StatusOK : Z := 200.
Definition StatusCreated : Z := 201.
Definition StatusNotFound : Z := 404.

(** A request: the path parameters and the outcome of [c.BindJSON], which is
    [None] when the body does not decode into an [album]. *)
Record Context : Type := {
  Params : list (string * string);
  BindJSON : option album
}.

(** [c.Param(key)]: the value of the first parameter named [key], the empty
    string when there is none. *)
Fixpoint Param_from (ps : list (string * string)) (key : string) : string :=
  match ps with
  | [] => ""
  | (k, v) :: ps' => if String.eqb k key then v else Param_from ps' key
  end.

Definition Param (c : Context) (key : string) : string :=
  Param_from (Params c) key.

(** A handler reads and possibly replaces the slice, and writes at most one
    response. *)
Definition Handler : Type := Context -> list album -> list album * option Response.

Definition not_found : Response :=
  IndentedJSON StatusNotFound (H [("message", "album not found")]).

(** ** Handlers *)

Definition getAlbums : Handler := fun c albums =>
  (albums, Some (IndentedJSON StatusOK (JAlbums albums))).

Definition postAlbums : Handler := fun c albums =>
  match BindJSON c with
  | None => (albums, None)
  | Some newAlbum =>
      (albums ++ [newAlbum], Some (IndentedJSON StatusCreated (JAlbum newAlbum)))
  end.

(** [for _, a := range albums { if a.ID == id { ...; return } }] *)
Fixpoint getAlbumByID_loop (id : string) (rest : list album) : Response :=
  match rest with
  | [] => not_found
  | a :: rest' =>
      if String.eqb (ID a) id then IndentedJSON StatusOK (JAlbum a)
      else getAlbumByID_loop id rest'
  end.

Definition getAlbumByID : Handler := fun c albums =>
  let id := Param c "id" in
  (albums, Some (getAlbumByID_loop id albums)).

Definition ok_json (v : JSON) : option Response :=
  Some (IndentedJSON StatusOK v).

(** PATCH.  [i] is the loop index and [rest] the elements the [range] loop
    still has to visit; the field assignments go to [albums[i]] in the
    package-level slice. *)
Fixpoint updateAlbum_loop (id : string) (updatedAlbum : album)
    (albums : list album) (i : nat) (rest : list album)
    : list album * option Response :=
  match rest with
  | [] => (albums, Some not_found)
  | a :: rest' =>
      if String.eqb (ID a) id then
        let albums :=
          if negb (String.eqb (Title updatedAlbum) "")
          then alter (set_Title (Title updatedAlbum)) i albums else albums in
        let albums :=
          if negb (String.eqb (Artist updatedAlbum) "")
          then alter (set_Artist (Artist updatedAlbum)) i albums else albums in
        let albums :=
          if negb (PrimFloat.eqb (Price updatedAlbum) 0%float)
          then alter (set_Price (Price updatedAlbum)) i albums else albums in
        (albums, ok_json (JAlbum updatedAlbum))
      else updateAlbum_loop id updatedAlbum albums (S i) rest'
  end.

Definition updateAlbum : Handler := fun c albums =>
  let id := Param c "id" in
  match BindJSON c with
  | None => (albums, None)
  | Some updatedAlbum => updateAlbum_loop id updatedAlbum albums 0 albums
  end.

(** PUT: [albums[i] = updatedAlbum]. *)
Fixpoint overwriteAlbum_loop (id : string) (updatedAlbum : album)
    (albums : list album) (i : nat) (rest : list album)
    : list album * option Response :=
  match rest with
  | [] => (albums, Some not_found)
  | a :: rest' =>
      if String.eqb (ID a) id then
        (<[i := updatedAlbum]> albums, ok_json (JAlbum updatedAlbum))
      else overwriteAlbum_loop id updatedAlbum albums (S i) rest'
  end.

Definition overwriteAlbum : Handler := fun c albums =>
  let id := Param c "id" in
  match BindJSON c with
  | None => (albums, None)
  | Some updatedAlbum => overwriteAlbum_loop id updatedAlbum albums 0 albums
  end.

(** DELETE: [albums = append(albums[:i], albums[i+1:]...)]. *)
Fixpoint deleteAlbum_loop (id : string)
    (albums : list album) (i : nat) (rest : list album)
    : list album * option Response :=
  match rest with
  | [] => (albums, Some not_found)
  | a :: rest' =>
      if String.eqb (ID a) id then
        (take i albums ++ drop (S i) albums,
         ok_json (H [("message", "album deleted")]))
      else deleteAlbum_loop id albums (S i) rest'
  end.

Definition deleteAlbum : Handler := fun c albums =>
  let id := Param c "id" in
  deleteAlbum_loop id albums 0 albums.

(** ** Requests used in the statements *)

(** A request on [/albums/:id], with a body that decoded to [body] when there
    is one. *)
Definition req (id : string) (body : option album) : Context :=
  {| Params := [("id", id)]; BindJSON := body |}.

(** A request on [/albums] whose body decoded to [a]. *)
Definition req_body (a : album) : Context :=
  {| Params := []; BindJSON := Some a |}.

(** ** Specification vocabulary *)

(** [first_match id l i a]: [a] is stored at index [i], its id is [id], and no
    record before index [i] has that id. *)
Definition first_match (id : string) (l : list album) (i : nat) (a : album) : Prop :=
  l !! i = Some a ∧ ID a = id ∧ ∀ j b, (j < i)%nat → l !! j = Some b → ID b ≠ id.

(** No stored record has the id. *)
Definition no_match (id : string) (l : list album) : Prop :=
  ∀ a, a ∈ l → ID a ≠ id.

(** The record PATCH is specified to store, written from the specification
    and compared with [updateAlbum] below: the id is kept, and each of title,
    artist and price is taken from the payload when the payload's field is
    non-empty (non-zero for the price) and kept otherwise. *)
Definition merged (old upd : album) : album :=
  {| ID := ID old;
     Title := if String.eqb (Title upd) "" then Title old else Title upd;
     Artist := if String.eqb (Artist upd) "" then Artist old else Artist upd;
     Price := if PrimFloat.eqb (Price upd) 0%float then Price old else Price upd |}.

(** Index of the first record with the id in [l]. *)
Fixpoint index_of (id : string) (l : list album) : option nat :=
  match l with
  | [] => None
  | a :: l' => if String.eqb (ID a) id then Some 0%nat else S <$> index_of id l'
  end.

(** No two stored records share an id. *)
Definition unique_ids (albums : list album) : Prop := NoDup (ID <$> albums).

(** One request after another on the same slice: the second handler runs on
    the slice the first one left. *)
Definition then_run (h1 : Handler) (c1 : Context) (h2 : Handler) (c2 : Context)
    (albums : list album) : list album * option Response :=
  h2 c2 (fst (h1 c1 albums)).

(** A payload with no title, no artist and a price that compares equal to
    zero: what an empty JSON object decodes to, up to the id. *)
Definition empty_payload (upd : album) : Prop :=
  Title upd = "" ∧ Artist upd = "" ∧ PrimFloat.eqb (Price upd) 0%float = true.

(** ** Composite operation and sample data *)

(** A second record with id "2". *)
Definition put_2 : album :=
  {| ID := "2"; Title := "Kind of Blue"; Artist := "Miles Davis";
     Price := 30%float |}.

(** Create, then read back with the id of the created record. *)
Definition create_then_get (albums : list album) (r : album)
    : list album * option Response :=
  getAlbumByID (req (ID r) None) (fst (postAlbums (req_body r) albums)).

(** The test request of the source's closing comment. *)
Definition betty_carter : album :=
  {| ID := "4"; Title := "The Modern Sound of Betty Carter";
     Artist := "Betty Carter"; Price := 49.99%float |}.

(** A PUT on path id "2" with a payload whose id is "7". *)
Definition put_7 : album :=
  {| ID := "7"; Title := "Kind of Blue"; Artist := "Miles Davis";
     Price := 30%float |}.

(** A PATCH payload that carries only a title: the other fields have Go's
    zero values. *)
Definition patch_title : album :=
  {| ID := ""; Title := "Blue Train (Remastered)"; Artist := "";
     Price := 0%float |}.

(** A slice in which id "1" occurs at indices 1 and 3. *)
Definition albums_dup : list album :=
  [ {| ID := "0"; Title := "t0"; Artist := "r0"; Price := 1%float |};
    {| ID := "1"; Title := "t1"; Artist := "r1"; Price := 2%float |};
    {| ID := "2"; Title := "t2"; Artist := "r2"; Price := 3%float |};
    {| ID := "1"; Title := "t3"; Artist := "r3"; Price := 4%float |} ].

(** ** Facts about the scan *)

Section scan.
Variable id : string.

Lemma first_match_here a l : ID a = id → first_match id (a :: l) 0 a.
Proof. intros Ha. split_and!; [done | done | intros j b Hj; lia]. Qed.

Lemma first_match_later a l i b :
  ID a ≠ id → first_match id l i b → first_match id (a :: l) (S i) b.
Proof.
  intros Ha (Hi & Hb & Hlt). split_and!; [done | done |].
  intros [|j] c Hj Hc; simplify_eq/=; [done |]. eapply Hlt; [|done]. lia.
Qed.

Lemma first_match_cons_inv a l i b :
  first_match id (a :: l) i b →
  (i = 0%nat ∧ a = b ∧ ID a = id)
  ∨ (∃ k, i = S k ∧ ID a ≠ id ∧ first_match id l k b).
Proof.
  intros (Hi & Hb & Hlt). destruct i as [|k]; simplify_eq/=; [by left |].
  right. exists k. split_and!; [done | |].
  - apply (Hlt 0%nat a); [lia | done].
  - split_and!; [done | done |].
    intros j c Hj Hc. apply (Hlt (S j) c); [lia | done].
Qed.

Lemma no_match_cons a l : no_match id (a :: l) ↔ ID a ≠ id ∧ no_match id l.
Proof.
  unfold no_match. split.
  - intros Hn. split; [apply Hn; left | intros b Hb; apply Hn; by right].
  - intros [Ha Hn] b [->|Hb]%elem_of_cons; auto.
Qed.

Lemma first_match_not_no_match l i a :
  first_match id l i a → ¬ no_match id l.
Proof.
  intros (Hi & Ha & _) Hn. apply (Hn a); [|done].
  by eapply list_elem_of_lookup_2.
Qed.

Lemma first_match_unique l i a j b :
  first_match id l i a → first_match id l j b → i = j ∧ a = b.
Proof.
  intros (Hi & Ha & Hlti) (Hj & Hb & Hltj).
  destruct (Nat.lt_trichotomy i j) as [Hlt | [-> | Hlt]].
  - by destruct (Hltj i a Hlt Hi).
  - split; congruence.
  - by destruct (Hlti j b Hlt Hj).
Qed.

Lemma index_of_Some l i :
  index_of id l = Some i → ∃ a, first_match id l i a.
Proof.
  revert i. induction l as [|a l IH]; intros i Hidx; simplify_eq/=.
  destruct (String.eqb_spec (ID a) id) as [Heq | Hne].
  - injection Hidx as <-. exists a. by apply first_match_here.
  - destruct (index_of id l) as [k|] eqn:Hk; simplify_eq/=.
    destruct (IH k eq_refl) as [b Hb]. exists b. by apply first_match_later.
Qed.

Lemma index_of_None l : index_of id l = None → no_match id l.
Proof.
  induction l as [|a l IH]; simpl; [intros _ b Hb; by apply elem_of_nil in Hb |].
  destruct (String.eqb_spec (ID a) id) as [Heq | Hne]; [done |].
  destruct (index_of id l); [done |]. intros _. apply no_match_cons; auto.
Qed.

(** The scan either stops at a first match or finds none. *)
Lemma scan_cases l : (∃ i a, first_match id l i a) ∨ no_match id l.
Proof.
  destruct (index_of id l) as [i|] eqn:Hidx.
  - left. exists i. by apply index_of_Some.
  - right. by apply index_of_None.
Qed.

Lemma elem_first_match l a :
  a ∈ l → ID a = id → ∃ i b, first_match id l i b.
Proof.
  intros Hin Ha. destruct (scan_cases l) as [?|Hn]; [done |].
  by destruct (Hn a Hin).
Qed.
End scan.

(** ** The loops, by induction on the part of the slice still to visit *)

(** Splits a [first_match] on a non-empty list into the two ways the loop
    body can go. *)
Ltac scan_step H :=
  let k := fresh "k" in
  let Hne := fresh "Hne" in
  apply first_match_cons_inv in H as [(-> & -> & H) | (k & -> & Hne & H)];
  simpl;
  [ rewrite (proj2 (String.eqb_eq _ _) H)
  | rewrite (proj2 (String.eqb_neq _ _) Hne) ].

Ltac scan_miss H :=
  let Hne := fresh "Hne" in
  apply no_match_cons in H as [Hne H]; simpl;
  rewrite (proj2 (String.eqb_neq _ _) Hne).

Lemma getAlbumByID_loop_found id l i a :
  first_match id l i a →
  getAlbumByID_loop id l = IndentedJSON StatusOK (JAlbum a).
Proof.
  revert i. induction l as [|b l IH]; intros i Hm.
  - destruct Hm as (Hi & _). by rewrite lookup_nil in Hi.
  - scan_step Hm; [done | by eapply IH].
Qed.

Lemma getAlbumByID_loop_none id l :
  no_match id l → getAlbumByID_loop id l = not_found.
Proof. induction l as [|b l IH]; intros Hn; [done |]. scan_miss Hn. auto. Qed.

Lemma overwriteAlbum_loop_found id upd albums rest i k a :
  first_match id rest k a →
  overwriteAlbum_loop id upd albums i rest
  = (<[(i + k)%nat := upd]> albums, ok_json (JAlbum upd)).
Proof.
  revert i k. induction rest as [|b rest IH]; intros i k Hm.
  - destruct Hm as (Hk & _). by rewrite lookup_nil in Hk.
  - scan_step Hm.
    + by rewrite Nat.add_0_r.
    + rewrite (IH (S i) k0 Hm). do 2 f_equal. lia.
Qed.

Lemma overwriteAlbum_loop_none id upd albums rest i :
  no_match id rest →
  overwriteAlbum_loop id upd albums i rest = (albums, Some not_found).
Proof.
  revert i. induction rest as [|b rest IH]; intros i Hn; [done |].
  scan_miss Hn. auto.
Qed.

Lemma deleteAlbum_loop_found id albums rest i k a :
  first_match id rest k a →
  deleteAlbum_loop id albums i rest
  = (take (i + k) albums ++ drop (S (i + k)) albums,
     ok_json (H [("message", "album deleted")])).
Proof.
  revert i k. induction rest as [|b rest IH]; intros i k Hm.
  - destruct Hm as (Hk & _). by rewrite lookup_nil in Hk.
  - scan_step Hm.
    + by rewrite Nat.add_0_r.
    + rewrite (IH (S i) k0 Hm). by rewrite Nat.add_succ_r.
Qed.

Lemma deleteAlbum_loop_none id albums rest i :
  no_match id rest →
  deleteAlbum_loop id albums i rest = (albums, Some not_found).
Proof.
  revert i. induction rest as [|b rest IH]; intros i Hn; [done |].
  scan_miss Hn. auto.
Qed.

(** The three guarded field assignments of PATCH amount to storing
    [merged b upd] at the index. *)
Lemma assignments_merged (albums : list album) i b upd :
  albums !! i = Some b →
  (let albums :=
     if negb (String.eqb (Title upd) "")
     then alter (set_Title (Title upd)) i albums else albums in
   let albums :=
     if negb (String.eqb (Artist upd) "")
     then alter (set_Artist (Artist upd)) i albums else albums in
   let albums :=
     if negb (PrimFloat.eqb (Price upd) 0%float)
     then alter (set_Price (Price upd)) i albums else albums in
   albums)
  = <[i := merged b upd]> albums.
Proof.
  intros Hi. pose proof (lookup_lt_Some _ _ _ Hi) as Hlen.
  cbv zeta. apply list_eq. intros j. unfold merged.
  destruct (String.eqb (Title upd) ""), (String.eqb (Artist upd) ""),
    (PrimFloat.eqb (Price upd) 0%float); simpl;
    destruct (decide (i = j)) as [<- | Hij];
    rewrite ?list_lookup_alter_eq, ?list_lookup_alter_ne,
      ?list_lookup_insert_eq, ?list_lookup_insert_ne, ?length_alter, ?Hi
      by (rewrite ?length_alter; done);
    try done; by destruct b.
Qed.

Lemma updateAlbum_loop_found id upd albums rest i k a b :
  first_match id rest k a →
  albums !! (i + k)%nat = Some b →
  updateAlbum_loop id upd albums i rest
  = (<[(i + k)%nat := merged b upd]> albums, ok_json (JAlbum upd)).
Proof.
  revert i k. induction rest as [|c rest IH]; intros i k Hm Hb.
  - destruct Hm as (Hk & _). by rewrite lookup_nil in Hk.
  - scan_step Hm.
    + rewrite Nat.add_0_r in *. f_equal. by apply assignments_merged.
    + rewrite Nat.add_succ_r in Hb.
      rewrite (IH (S i) k0 Hm Hb). by rewrite Nat.add_succ_r.
Qed.

Lemma updateAlbum_loop_none id upd albums rest i :
  no_match id rest →
  updateAlbum_loop id upd albums i rest = (albums, Some not_found).
Proof.
  revert i. induction rest as [|b rest IH]; intros i Hn; [done |].
  scan_miss Hn. auto.
Qed.

(** ** From the loops to the handlers *)

Lemma Param_req id body : Param (req id body) "id" = id.
Proof. reflexivity. Qed.

Lemma first_match_of_index id (l : list album) i a :
  index_of id l = Some i → l !! i = Some a → first_match id l i a.
Proof.
  intros [b Hb]%index_of_Some Hi.
  destruct Hb as (Hi' & Hrest). rewrite Hi in Hi'. injection Hi' as <-.
  by split.
Qed.

Lemma first_match_lt id (l : list album) i a :
  first_match id l i a → (i < length l)%nat.
Proof. intros (Hi & _). by eapply lookup_lt_Some. Qed.

Lemma overwriteAlbum_found id upd (albums : list album) i a :
  first_match id albums i a →
  overwriteAlbum (req id (Some upd)) albums
  = (<[i := upd]> albums, ok_json (JAlbum upd)).
Proof.
  intros Hm. unfold overwriteAlbum. rewrite Param_req. simpl.
  by rewrite (overwriteAlbum_loop_found _ _ _ _ 0 _ _ Hm).
Qed.

Lemma updateAlbum_found id upd (albums : list album) i a :
  first_match id albums i a →
  updateAlbum (req id (Some upd)) albums
  = (<[i := merged a upd]> albums, ok_json (JAlbum upd)).
Proof.
  intros Hm. unfold updateAlbum. rewrite Param_req. simpl.
  apply (updateAlbum_loop_found _ _ _ _ 0 _ _ _ Hm). apply Hm.
Qed.

Lemma deleteAlbum_found id body (albums : list album) i a :
  first_match id albums i a →
  deleteAlbum (req id body) albums
  = (delete i albums, ok_json (H [("message", "album deleted")])).
Proof.
  intros Hm. unfold deleteAlbum. rewrite Param_req. simpl.
  rewrite (deleteAlbum_loop_found _ _ _ 0 _ _ Hm). simpl.
  by rewrite delete_take_drop.
Qed.

(** The fields of the record PATCH stores, one by one. *)
Lemma merged_fields old upd :
  ID (merged old upd) = ID old
  ∧ (Title upd ≠ "" → Title (merged old upd) = Title upd)
  ∧ (Title upd = "" → Title (merged old upd) = Title old)
  ∧ (Artist upd ≠ "" → Artist (merged old upd) = Artist upd)
  ∧ (Artist upd = "" → Artist (merged old upd) = Artist old)
  ∧ (PrimFloat.eqb (Price upd) 0%float = false →
     Price (merged old upd) = Price upd)
  ∧ (PrimFloat.eqb (Price upd) 0%float = true →
     Price (merged old upd) = Price old).
Proof.
  unfold merged; simpl. split_and!; try done.
  - intros Hne. by rewrite (proj2 (String.eqb_neq _ _) Hne).
  - intros ->. done.
  - intros Hne. by rewrite (proj2 (String.eqb_neq _ _) Hne).
  - intros ->. done.
  - by intros ->.
  - by intros ->.
Qed.

(** ** Reading *)

(** C1: for every slice and every id, [getAlbumByID] leaves the slice as it
    is and either answers 200 with the first stored record whose id is exactly
    the requested string, or answers 404 and no stored record has that id; the
    404 answer is given if and only if no stored record has the id. *)
Theorem getAlbumByID_first_match (albums : list album) (id : string)
    (body : option album) :
  fst (getAlbumByID (req id body) albums) = albums
  ∧ ((∃ i a, first_match id albums i a
        ∧ snd (getAlbumByID (req id body) albums) = ok_json (JAlbum a))
     ∨ (no_match id albums
        ∧ snd (getAlbumByID (req id body) albums) = Some not_found))
  ∧ (snd (getAlbumByID (req id body) albums) = Some not_found
     ↔ no_match id albums).
Proof.
  unfold getAlbumByID. rewrite Param_req. simpl. split; [done |].
  destruct (scan_cases id albums) as [(i & a & Hm) | Hn].
  - rewrite (getAlbumByID_loop_found _ _ _ _ Hm). split.
    + left. by exists i, a.
    + split; [done |]. intros Hn. by destruct (first_match_not_no_match _ _ _ _ Hm).
  - rewrite (getAlbumByID_loop_none _ _ Hn). split; [by right | done].
Qed.

(** The scan passes the first seeded record to reach id "2". *)
Example getAlbumByID_seed_2 :
  getAlbumByID {| Params := [("id", "2")]; BindJSON := None |} albums0
  = (albums0, Some (IndentedJSON StatusOK (JAlbum
       {| ID := "2"; Title := "Jeru"; Artist := "Gerry Mulligan";
          Price := 17.99%float |}))).
Proof. reflexivity. Qed.

(** The comparison of ids is case-sensitive. *)
Example getAlbumByID_case_sensitive :
  snd (getAlbumByID (req "a" None)
         [ {| ID := "A"; Title := "t"; Artist := "r"; Price := 1%float |} ])
  = Some not_found.
Proof. reflexivity. Qed.

(** C8: on the seeded slice, [getAlbumByID] with id "1" answers 200 with the
    record whose id is "1" and whose title is "Blue Train". *)
Theorem getAlbumByID_seeded_1 :
  getAlbumByID (req "1" None) albums0
  = (albums0,
     ok_json (JAlbum {| ID := "1"; Title := "Blue Train";
                        Artist := "John Coltrane"; Price := 56.99%float |})).
Proof. reflexivity. Qed.

(** ** Creating *)

(** C2: for every slice and every decoded record, [postAlbums] stores the
    slice followed by the record and answers 201 with that record; the stored
    slice is one longer, every earlier record is where and what it was, the
    new record is last, and a stored record with the same id stays stored
    next to the new one. *)
Theorem postAlbums_appends (albums : list album) (r : album) :
  postAlbums (req_body r) albums
  = (albums ++ [r], Some (IndentedJSON StatusCreated (JAlbum r)))
  ∧ length (fst (postAlbums (req_body r) albums)) = S (length albums)
  ∧ (∀ i a, albums !! i = Some a →
       fst (postAlbums (req_body r) albums) !! i = Some a)
  ∧ fst (postAlbums (req_body r) albums) !! length albums = Some r
  ∧ (∀ i a, albums !! i = Some a → ID a = ID r →
       i ≠ length albums
       ∧ fst (postAlbums (req_body r) albums) !! i = Some a
       ∧ fst (postAlbums (req_body r) albums) !! length albums = Some r).
Proof.
  simpl. split_and!.
  - done.
  - rewrite length_app. simpl. lia.
  - intros i a Hi. by apply lookup_app_l_Some.
  - by apply list_lookup_middle.
  - intros i a Hi _. split_and!.
    + apply lookup_lt_Some in Hi. lia.
    + by apply lookup_app_l_Some.
    + by apply list_lookup_middle.
Qed.

(** Two records with id "1" after one create on the seeded slice. *)
Example postAlbums_duplicate_id :
  let r := {| ID := "1"; Title := "Giant Steps"; Artist := "John Coltrane";
              Price := 20%float |} in
  ID <$> fst (postAlbums (req_body r) albums0) = ["1"; "2"; "3"; "1"].
Proof. reflexivity. Qed.

(** C3, as stated, fails: on the seeded slice, creating a record with id "1"
    and reading id "1" back answers with the seeded "Blue Train" record, not
    with the record submitted. *)
Lemma create_then_get_returns_older :
  let r := {| ID := "1"; Title := "Giant Steps"; Artist := "John Coltrane";
              Price := 20%float |} in
  snd (create_then_get albums0 r)
  = ok_json (JAlbum {| ID := "1"; Title := "Blue Train";
                       Artist := "John Coltrane"; Price := 56.99%float |})
  ∧ snd (create_then_get albums0 r) ≠ ok_json (JAlbum r).
Proof. split; [reflexivity | discriminate]. Qed.

(** C3, amended: when no stored record has the submitted record's id, create
    followed by a read with that id answers 200 with the submitted record;
    when the scan of the earlier records stops on a record with that id, the
    read answers 200 with that earlier record. *)
Theorem create_then_get_spec (albums : list album) (r : album) :
  (no_match (ID r) albums →
   create_then_get albums r = (albums ++ [r], ok_json (JAlbum r)))
  ∧ (∀ i a, first_match (ID r) albums i a →
     create_then_get albums r = (albums ++ [r], ok_json (JAlbum a))).
Proof.
  unfold create_then_get, getAlbumByID. rewrite Param_req. simpl. split.
  - intros Hn.
    rewrite (getAlbumByID_loop_found _ _ (length albums) r); [done |].
    split_and!; [by apply list_lookup_middle | done |].
    intros j b Hj Hb. rewrite lookup_app_l in Hb by done.
    apply Hn. by eapply list_elem_of_lookup_2.
  - intros i a (Hi & Ha & Hlt).
    rewrite (getAlbumByID_loop_found _ _ i a); [done |].
    split_and!; [by apply lookup_app_l_Some | done |].
    intros j b Hj Hb. apply (Hlt j b Hj).
    rewrite lookup_app_l in Hb; [done |].
    apply lookup_lt_Some in Hi. lia.
Qed.

Lemma create_then_get_spec_witness :
  no_match "4" albums0
  ∧ create_then_get albums0 betty_carter
    = (albums0 ++ [betty_carter], ok_json (JAlbum betty_carter))
  ∧ create_then_get albums0 put_2
    = (albums0 ++ [put_2],
       ok_json (JAlbum {| ID := "2"; Title := "Jeru";
                          Artist := "Gerry Mulligan"; Price := 17.99%float |})).
Proof.
  split_and!.
  - apply index_of_None. reflexivity.
  - apply (proj1 (create_then_get_spec albums0 betty_carter)).
    apply index_of_None. reflexivity.
  - apply (proj2 (create_then_get_spec albums0 put_2) 1%nat).
    by apply first_match_of_index.
Defined.

(** ** Replacing *)

(** C7: when the scan stops at index [i], [overwriteAlbum] stores the payload
    at index [i], whatever its id, changes no other index and no length, and
    answers 200 with the payload; when no stored record has the id it answers
    404. *)
Theorem overwriteAlbum_spec (albums : list album) (id : string) (upd : album) :
  (∀ i a, first_match id albums i a →
     overwriteAlbum (req id (Some upd)) albums
     = (<[i := upd]> albums, ok_json (JAlbum upd))
     ∧ fst (overwriteAlbum (req id (Some upd)) albums) !! i = Some upd
     ∧ ID <$> fst (overwriteAlbum (req id (Some upd)) albums) !! i
       = Some (ID upd)
     ∧ length (fst (overwriteAlbum (req id (Some upd)) albums))
       = length albums
     ∧ ∀ j, j ≠ i →
         fst (overwriteAlbum (req id (Some upd)) albums) !! j = albums !! j)
  ∧ (no_match id albums →
     snd (overwriteAlbum (req id (Some upd)) albums) = Some not_found).
Proof.
  split.
  - intros i a Hm. rewrite (overwriteAlbum_found _ _ _ _ _ Hm). simpl.
    pose proof (first_match_lt _ _ _ _ Hm) as Hlt.
    rewrite list_lookup_insert_eq by done. split_and!; try done.
    + apply length_insert.
    + intros j Hj. by apply list_lookup_insert_ne.
  - intros Hn. unfold overwriteAlbum. rewrite Param_req. simpl.
    by rewrite overwriteAlbum_loop_none.
Qed.

Lemma overwriteAlbum_spec_witness :
  ID <$> fst (overwriteAlbum (req "2" (Some put_7)) albums0) = ["1"; "7"; "3"]
  ∧ fst (overwriteAlbum (req "2" (Some put_7)) albums0) !! 1%nat = Some put_7
  ∧ snd (overwriteAlbum (req "9" (Some put_7)) albums0) = Some not_found.
Proof.
  split_and!.
  - reflexivity.
  - refine (proj1 (proj2 (proj1 (overwriteAlbum_spec albums0 "2" put_7) 1%nat _ _))).
    by apply first_match_of_index.
  - apply (proj2 (overwriteAlbum_spec albums0 "9" put_7)).
    apply index_of_None. reflexivity.
Defined.

(** ** Patching *)

(** C5: when the scan stops at index [i] on record [a], [updateAlbum] stores
    at index [i] a record with the id of [a] whose title, artist and price
    are the payload's where the payload's field is non-empty (title, artist)
    or compares unequal to zero (price), and those of [a] otherwise; so a
    payload price of 0 leaves the stored price as it was.  When no stored
    record has the id it answers 404. *)
Theorem updateAlbum_spec (albums : list album) (id : string) (upd : album) :
  (∀ i a, first_match id albums i a →
     ∃ a', fst (updateAlbum (req id (Some upd)) albums) = <[i := a']> albums
       ∧ fst (updateAlbum (req id (Some upd)) albums) !! i = Some a'
       ∧ a' = merged a upd
       ∧ ID a' = ID a
       ∧ (Title upd ≠ "" → Title a' = Title upd)
       ∧ (Title upd = "" → Title a' = Title a)
       ∧ (Artist upd ≠ "" → Artist a' = Artist upd)
       ∧ (Artist upd = "" → Artist a' = Artist a)
       ∧ (PrimFloat.eqb (Price upd) 0%float = false → Price a' = Price upd)
       ∧ (PrimFloat.eqb (Price upd) 0%float = true → Price a' = Price a)
       ∧ (Price upd = 0%float → Price a' = Price a))
  ∧ (no_match id albums →
     snd (updateAlbum (req id (Some upd)) albums) = Some not_found).
Proof.
  split.
  - intros i a Hm. exists (merged a upd).
    rewrite (updateAlbum_found _ _ _ _ _ Hm). simpl.
    pose proof (first_match_lt _ _ _ _ Hm) as Hlt.
    rewrite list_lookup_insert_eq by done.
    destruct (merged_fields a upd) as (HI & HT1 & HT2 & HA1 & HA2 & HP1 & HP2).
    split_and!; try done.
    intros Hz. apply HP2. by rewrite Hz.
  - intros Hn. unfold updateAlbum. rewrite Param_req. simpl.
    by rewrite updateAlbum_loop_none.
Qed.

Lemma updateAlbum_spec_witness :
  (∃ a', fst (updateAlbum (req "1" (Some patch_title)) albums0) !! 0%nat = Some a'
     ∧ Title a' = "Blue Train (Remastered)"
     ∧ Artist a' = "John Coltrane"
     ∧ Price a' = 56.99%float)
  ∧ snd (updateAlbum (req "9" (Some patch_title)) albums0) = Some not_found.
Proof.
  split.
  - destruct (proj1 (updateAlbum_spec albums0 "1" patch_title) 0%nat
                {| ID := "1"; Title := "Blue Train"; Artist := "John Coltrane";
                   Price := 56.99%float |})
      as (a' & _ & Hi & _ & _ & HT & _ & _ & HA & _ & _ & HP).
    + by apply first_match_of_index.
    + exists a'. split_and!; [done | by apply HT | by apply HA | by apply HP].
  - apply (proj2 (updateAlbum_spec albums0 "9" patch_title)).
    apply index_of_None. reflexivity.
Defined.

(** C6: when the scan stops on a stored record, the 200 answer of
    [updateAlbum] carries the payload as it was received, while the slice
    holds the merged record. *)
Theorem updateAlbum_echoes_payload (albums : list album) (id : string)
    (upd : album) (i : nat) (a : album) :
  first_match id albums i a →
  snd (updateAlbum (req id (Some upd)) albums) = ok_json (JAlbum upd)
  ∧ fst (updateAlbum (req id (Some upd)) albums) !! i = Some (merged a upd)
  ∧ (merged a upd ≠ upd →
     snd (updateAlbum (req id (Some upd)) albums)
     ≠ ok_json (JAlbum (merged a upd))).
Proof.
  intros Hm. rewrite (updateAlbum_found _ _ _ _ _ Hm). simpl.
  split_and!; [done | |].
  - apply list_lookup_insert_eq. by eapply first_match_lt.
  - intros Hne Heq. apply Hne. by injection Heq.
Qed.

Lemma updateAlbum_echoes_payload_witness :
  first_match "1" albums0 0
    {| ID := "1"; Title := "Blue Train"; Artist := "John Coltrane";
       Price := 56.99%float |}
  ∧ snd (updateAlbum (req "1" (Some patch_title)) albums0)
    = ok_json (JAlbum patch_title)
  ∧ fst (updateAlbum (req "1" (Some patch_title)) albums0) !! 0%nat
    = Some {| ID := "1"; Title := "Blue Train (Remastered)";
              Artist := "John Coltrane"; Price := 56.99%float |}
  ∧ snd (updateAlbum (req "1" (Some patch_title)) albums0)
    ≠ ok_json (JAlbum {| ID := "1"; Title := "Blue Train (Remastered)";
                         Artist := "John Coltrane"; Price := 56.99%float |}).
Proof.
  split.
  - by apply first_match_of_index.
  - destruct (updateAlbum_echoes_payload albums0 "1" patch_title 0
                {| ID := "1"; Title := "Blue Train"; Artist := "John Coltrane";
                   Price := 56.99%float |})
      as (Hecho & Hstored & Hdiff).
    + by apply first_match_of_index.
    + split_and!; [done | done |]. apply Hdiff. discriminate.
Defined.

(** ** Deleting *)

(** C4: when the scan stops at index [i], [deleteAlbum] stores the slice
    without its element at index [i]: the count drops by exactly one, the
    records before [i] keep their index and the records after [i] move down
    by one, in the same order; the answer is 200.  When no stored record has
    the id, the slice is returned as it was and the answer is 404. *)
Theorem deleteAlbum_spec (albums : list album) (id : string)
    (body : option album) :
  (∀ i a, first_match id albums i a →
     deleteAlbum (req id body) albums
     = (take i albums ++ drop (S i) albums,
        ok_json (H [("message", "album deleted")]))
     ∧ S (length (fst (deleteAlbum (req id body) albums))) = length albums
     ∧ albums
       = take i (fst (deleteAlbum (req id body) albums)) ++ a
         :: drop i (fst (deleteAlbum (req id body) albums))
     ∧ (∀ j, (j < i)%nat →
          fst (deleteAlbum (req id body) albums) !! j = albums !! j)
     ∧ (∀ j, (i ≤ j)%nat →
          fst (deleteAlbum (req id body) albums) !! j = albums !! S j))
  ∧ (no_match id albums →
     deleteAlbum (req id body) albums = (albums, Some not_found)).
Proof.
  split.
  - intros i a Hm. pose proof (first_match_lt _ _ _ _ Hm) as Hlt.
    destruct Hm as (Hi & Hm). split_and!.
    + rewrite (deleteAlbum_found _ _ _ i a) by (by split).
      by rewrite delete_take_drop.
    + rewrite (deleteAlbum_found _ _ _ i a) by (by split). simpl.
      rewrite length_delete by eauto. lia.
    + rewrite (deleteAlbum_found _ _ _ i a) by (by split). simpl.
      rewrite delete_take_drop.
      rewrite take_app_length' by (rewrite length_take; lia).
      rewrite drop_app_length' by (rewrite length_take; lia).
      symmetry. by apply take_drop_middle.
    + intros j Hj. rewrite (deleteAlbum_found _ _ _ i a) by (by split).
      by apply list_lookup_delete_lt.
    + intros j Hj. rewrite (deleteAlbum_found _ _ _ i a) by (by split).
      by apply list_lookup_delete_ge.
  - intros Hn. unfold deleteAlbum. rewrite Param_req. simpl.
    by apply deleteAlbum_loop_none.
Qed.

Lemma deleteAlbum_spec_witness :
  ID <$> fst (deleteAlbum (req "2" None) albums0) = ["1"; "3"]
  ∧ S (length (fst (deleteAlbum (req "2" None) albums0))) = length albums0
  ∧ deleteAlbum (req "9" None) albums0 = (albums0, Some not_found).
Proof.
  split_and!.
  - reflexivity.
  - refine (proj1 (proj2 (proj1 (deleteAlbum_spec albums0 "2" None) 1%nat
                            {| ID := "2"; Title := "Jeru";
                               Artist := "Gerry Mulligan";
                               Price := 17.99%float |} _))).
    by apply first_match_of_index.
  - apply (proj2 (deleteAlbum_spec albums0 "9" None)).
    apply index_of_None. reflexivity.
Defined.

(** ** Duplicated ids and missing ids *)

(** C9: let the scan stop at index [i], and let a later index [k] hold another
    record [d] with the same id.  Then [overwriteAlbum] and [updateAlbum]
    leave every index other than [i] as it was, [d] at index [k] included;
    [deleteAlbum] leaves the indices before [i] as they were and moves every
    later record down by one, so [d] is found unchanged at index [k - 1]. *)
Theorem first_match_only (albums : list album) (id : string) (upd : album)
    (body : option album) (i : nat) (a : album) (k : nat) (d : album) :
  first_match id albums i a →
  (i < k)%nat → albums !! k = Some d → ID d = id →
  ((∀ j, j ≠ i →
      fst (overwriteAlbum (req id (Some upd)) albums) !! j = albums !! j)
   ∧ fst (overwriteAlbum (req id (Some upd)) albums) !! k = Some d)
  ∧ ((∀ j, j ≠ i →
        fst (updateAlbum (req id (Some upd)) albums) !! j = albums !! j)
     ∧ fst (updateAlbum (req id (Some upd)) albums) !! k = Some d)
  ∧ ((∀ j, (j < i)%nat →
        fst (deleteAlbum (req id body) albums) !! j = albums !! j)
     ∧ (∀ j, (i ≤ j)%nat →
          fst (deleteAlbum (req id body) albums) !! j = albums !! S j)
     ∧ fst (deleteAlbum (req id body) albums) !! (k - 1)%nat = Some d
     ∧ length (fst (deleteAlbum (req id body) albums))
       = (length albums - 1)%nat).
Proof.
  intros Hm Hik Hk Hd.
  rewrite (overwriteAlbum_found _ _ _ _ _ Hm), (updateAlbum_found _ _ _ _ _ Hm),
    (deleteAlbum_found _ _ _ _ _ Hm). simpl.
  split_and!.
  - intros j Hj. by apply list_lookup_insert_ne.
  - rewrite list_lookup_insert_ne by lia. done.
  - intros j Hj. by apply list_lookup_insert_ne.
  - rewrite list_lookup_insert_ne by lia. done.
  - intros j Hj. by apply list_lookup_delete_lt.
  - intros j Hj. by apply list_lookup_delete_ge.
  - rewrite list_lookup_delete_ge by lia.
    by replace (S (k - 1)) with k by lia.
  - apply length_delete. destruct Hm as (Hi & _). eauto.
Qed.

Lemma first_match_only_witness :
  fst (overwriteAlbum (req "1" (Some put_7)) albums_dup) !! 3%nat
  = Some {| ID := "1"; Title := "t3"; Artist := "r3"; Price := 4%float |}
  ∧ fst (updateAlbum (req "1" (Some put_7)) albums_dup) !! 3%nat
    = Some {| ID := "1"; Title := "t3"; Artist := "r3"; Price := 4%float |}
  ∧ fst (deleteAlbum (req "1" None) albums_dup) !! 2%nat
    = Some {| ID := "1"; Title := "t3"; Artist := "r3"; Price := 4%float |}.
Proof.
  assert (first_match "1" albums_dup 1
            {| ID := "1"; Title := "t1"; Artist := "r1"; Price := 2%float |})
    as Hm by (by apply first_match_of_index).
  pose proof (first_match_only albums_dup "1" put_7 None 1 _ 3
                {| ID := "1"; Title := "t3"; Artist := "r3"; Price := 4%float |}
                Hm ltac:(lia) eq_refl eq_refl)
    as ((_ & Ho) & (_ & Hu) & (_ & _ & Hd & _)).
  by split_and!.
Defined.

(** C10: when no stored record has the id, [overwriteAlbum] and [updateAlbum]
    return the slice as it was (and answer 404). *)
Theorem not_found_unchanged (albums : list album) (id : string) (upd : album) :
  no_match id albums →
  overwriteAlbum (req id (Some upd)) albums = (albums, Some not_found)
  ∧ updateAlbum (req id (Some upd)) albums = (albums, Some not_found).
Proof.
  intros Hn. unfold overwriteAlbum, updateAlbum. rewrite Param_req. simpl.
  split; [by apply overwriteAlbum_loop_none | by apply updateAlbum_loop_none].
Qed.

Lemma not_found_unchanged_witness :
  no_match "9" albums0
  ∧ overwriteAlbum (req "9" (Some put_7)) albums0 = (albums0, Some not_found)
  ∧ updateAlbum (req "9" (Some put_7)) albums0 = (albums0, Some not_found).
Proof.
  split.
  - apply index_of_None. reflexivity.
  - apply (not_found_unchanged albums0 "9" put_7).
    apply index_of_None. reflexivity.
Defined.

(** ** The handlers on an arbitrary request *)

(** Each loop, started at index 0 on the whole slice, ends in one of two
    ways. *)
Lemma getAlbumByID_loop_cases id (albums : list album) :
  (∃ i a, first_match id albums i a
     ∧ getAlbumByID_loop id albums = IndentedJSON StatusOK (JAlbum a))
  ∨ (no_match id albums ∧ getAlbumByID_loop id albums = not_found).
Proof.
  destruct (scan_cases id albums) as [(i & a & Hm) | Hn].
  - left. exists i, a. split; [done |]. by eapply getAlbumByID_loop_found.
  - right. split; [done |]. by apply getAlbumByID_loop_none.
Qed.

Lemma overwriteAlbum_loop_cases id upd (albums : list album) :
  (∃ i a, first_match id albums i a
     ∧ overwriteAlbum_loop id upd albums 0 albums
       = (<[i := upd]> albums, ok_json (JAlbum upd)))
  ∨ (no_match id albums
     ∧ overwriteAlbum_loop id upd albums 0 albums = (albums, Some not_found)).
Proof.
  destruct (scan_cases id albums) as [(i & a & Hm) | Hn].
  - left. exists i, a. split; [done |].
    by rewrite (overwriteAlbum_loop_found _ _ _ _ 0 _ _ Hm).
  - right. split; [done |]. by apply overwriteAlbum_loop_none.
Qed.

Lemma updateAlbum_loop_cases id upd (albums : list album) :
  (∃ i a, first_match id albums i a
     ∧ updateAlbum_loop id upd albums 0 albums
       = (<[i := merged a upd]> albums, ok_json (JAlbum upd)))
  ∨ (no_match id albums
     ∧ updateAlbum_loop id upd albums 0 albums = (albums, Some not_found)).
Proof.
  destruct (scan_cases id albums) as [(i & a & Hm) | Hn].
  - left. exists i, a. split; [done |].
    apply (updateAlbum_loop_found _ _ _ _ 0 _ _ _ Hm). apply Hm.
  - right. split; [done |]. by apply updateAlbum_loop_none.
Qed.

Lemma deleteAlbum_loop_cases id (albums : list album) :
  (∃ i a, first_match id albums i a
     ∧ deleteAlbum_loop id albums 0 albums
       = (delete i albums, ok_json (H [("message", "album deleted")])))
  ∨ (no_match id albums
     ∧ deleteAlbum_loop id albums 0 albums = (albums, Some not_found)).
Proof.
  destruct (scan_cases id albums) as [(i & a & Hm) | Hn].
  - left. exists i, a. split; [done |].
    rewrite (deleteAlbum_loop_found _ _ _ 0 _ _ Hm). simpl.
    by rewrite delete_take_drop.
  - right. split; [done |]. by apply deleteAlbum_loop_none.
Qed.

(** How the scan for one id sees a change made to the slice. *)
Lemma first_match_insert id (l : list album) i a b :
  first_match id l i a → ID b = id → first_match id (<[i := b]> l) i b.
Proof.
  intros Hm Hb. pose proof (first_match_lt _ _ _ _ Hm) as Hlt.
  destruct Hm as (Hi & Ha & Hbefore). split_and!; [| done |].
  - by apply list_lookup_insert_eq.
  - intros j c Hj Hc. rewrite list_lookup_insert_ne in Hc by lia. eauto.
Qed.

Lemma getAlbumByID_loop_insert_other id' (l : list album) i a b :
  l !! i = Some a → ID a ≠ id' → ID b ≠ id' →
  getAlbumByID_loop id' (<[i := b]> l) = getAlbumByID_loop id' l.
Proof.
  revert i. induction l as [|c l IH]; intros [|i] Hi Ha Hb; simplify_eq/=.
  - by rewrite (proj2 (String.eqb_neq _ _) Ha), (proj2 (String.eqb_neq _ _) Hb).
  - destruct (String.eqb (ID c) id'); [done | by eapply IH].
Qed.

Lemma getAlbumByID_loop_delete_other id' (l : list album) i a :
  l !! i = Some a → ID a ≠ id' →
  getAlbumByID_loop id' (delete i l) = getAlbumByID_loop id' l.
Proof.
  revert i. induction l as [|c l IH]; intros [|i] Hi Ha; simplify_eq/=.
  - by rewrite (proj2 (String.eqb_neq _ _) Ha).
  - destruct (String.eqb (ID c) id'); [done | by eapply IH].
Qed.

Lemma getAlbumByID_loop_app_other id' (l : list album) r :
  ID r ≠ id' →
  getAlbumByID_loop id' (l ++ [r]) = getAlbumByID_loop id' l.
Proof.
  intros Hr. induction l as [|c l IH]; simpl.
  - by rewrite (proj2 (String.eqb_neq _ _) Hr).
  - by destruct (String.eqb (ID c) id').
Qed.

(** With unique ids, a stored record is the first match of its own id, and
    deleting it leaves no record with that id. *)
Lemma unique_ids_first_match (l : list album) i a :
  unique_ids l → l !! i = Some a → first_match (ID a) l i a.
Proof.
  intros Hu Hi. split_and!; [done | done |].
  intros j b Hj Hb Heq.
  assert (j = i); [| lia].
  apply (NoDup_lookup (ID <$> l) j i (ID a) Hu).
  - by rewrite list_lookup_fmap, Hb, <- Heq.
  - by rewrite list_lookup_fmap, Hi.
Qed.

Lemma unique_ids_delete_no_match (l : list album) i a :
  unique_ids l → l !! i = Some a → no_match (ID a) (delete i l).
Proof.
  intros Hu Hi b [j Hj]%list_elem_of_lookup_1 Heq.
  rewrite list_lookup_delete in Hj.
  assert ((if decide (j < i)%nat then j else S j) = i) as Hji.
  { apply (NoDup_lookup (ID <$> l) _ i (ID a) Hu).
    - by rewrite list_lookup_fmap, Hj, <- Heq.
    - by rewrite list_lookup_fmap, Hi. }
  case_decide; lia.
Qed.

Lemma unique_ids_albums0 : unique_ids albums0.
Proof. unfold unique_ids. apply (bool_decide_unpack _). reflexivity. Qed.

Lemma merged_idem a upd : merged (merged a upd) upd = merged a upd.
Proof.
  unfold merged; simpl.
  destruct (String.eqb (Title upd) ""), (String.eqb (Artist upd) ""),
    (PrimFloat.eqb (Price upd) 0%float); done.
Qed.

Lemma merged_empty a upd : empty_payload upd → merged a upd = a.
Proof.
  intros (HT & HA & HP). unfold merged. rewrite HT, HA, HP. simpl. by destruct a.
Qed.

(** ** Responses on an arbitrary request *)



(** ** What a request can do to the number of records and to the ids *)

(** X3: whatever the request, PUT and PATCH keep the number of stored records
    and the two GET handlers keep the slice; POST adds exactly one record when
    the body decodes and none otherwise; DELETE removes one record or none. *)
Theorem record_count (c : Context) (albums : list album) :
  length (fst (overwriteAlbum c albums)) = length albums
  ∧ length (fst (updateAlbum c albums)) = length albums
  ∧ fst (getAlbums c albums) = albums
  ∧ fst (getAlbumByID c albums) = albums
  ∧ length (fst (postAlbums c albums))
    = (length albums + match BindJSON c with Some _ => 1 | None => 0 end)%nat
  ∧ (length (fst (deleteAlbum c albums)) = length albums
     ∨ S (length (fst (deleteAlbum c albums))) = length albums).
Proof.
  unfold postAlbums, overwriteAlbum, updateAlbum, getAlbums, getAlbumByID,
    deleteAlbum.
  set (id := Param c "id").
  assert (length (fst (deleteAlbum_loop id albums 0 albums)) = length albums
          ∨ S (length (fst (deleteAlbum_loop id albums 0 albums)))
            = length albums) as Hdel.
  { destruct (deleteAlbum_loop_cases id albums) as [(i & a & Hm & ->) | [_ ->]];
      [right | by left].
    simpl. pose proof (first_match_lt _ _ _ _ Hm).
    rewrite length_delete by (destruct Hm; eauto). lia. }
  destruct (BindJSON c) as [upd|]; simpl.
  - destruct (overwriteAlbum_loop_cases id upd albums) as [(i & a & _ & ->) | [_ ->]],
      (updateAlbum_loop_cases id upd albums) as [(i' & a' & _ & ->) | [_ ->]];
      simpl; rewrite ?length_insert, ?length_app; simpl; split_and!; done.
  - split_and!; done.
Qed.

(** X4: whatever the request, PATCH leaves the sequence of stored ids as it
    was: the payload's id is never stored. *)
Theorem updateAlbum_keeps_ids (c : Context) (albums : list album) :
  ID <$> fst (updateAlbum c albums) = ID <$> albums.
Proof.
  unfold updateAlbum. destruct (BindJSON c) as [upd|]; [| done].
  destruct (updateAlbum_loop_cases (Param c "id") upd albums)
    as [(i & a & Hm & ->) | [_ ->]]; [| done].
  simpl. rewrite list_fmap_insert. apply list_insert_id.
  rewrite list_lookup_fmap. destruct Hm as (-> & _). done.
Qed.

(** X5: a PUT whose payload carries the path id leaves the sequence of stored
    ids as it was, whether or not a record is found. *)
Theorem overwriteAlbum_same_id_keeps_ids (id : string) (upd : album)
    (albums : list album) :
  ID upd = id →
  ID <$> fst (overwriteAlbum (req id (Some upd)) albums) = ID <$> albums.
Proof.
  intros Hid. unfold overwriteAlbum. rewrite Param_req. simpl.
  destruct (overwriteAlbum_loop_cases id upd albums)
    as [(i & a & Hm & ->) | [_ ->]]; [| done].
  simpl. rewrite list_fmap_insert. apply list_insert_id.
  rewrite list_lookup_fmap. destruct Hm as (-> & Ha & _). simpl. congruence.
Qed.

Lemma overwriteAlbum_same_id_keeps_ids_witness :
  ID put_2 = "2"
  ∧ ID <$> fst (overwriteAlbum (req "2" (Some put_2)) albums0)
    = ID <$> albums0.
Proof.
  split; [reflexivity |].
  apply (overwriteAlbum_same_id_keeps_ids "2" put_2 albums0). reflexivity.
Defined.

(** ** One request after another *)

Lemma getAlbumByID_loop_skip id (l1 l2 : list album) :
  no_match id l1 →
  getAlbumByID_loop id (l1 ++ l2) = getAlbumByID_loop id l2.
Proof.
  induction l1 as [|c l1 IH]; intros Hn; [done |].
  scan_miss Hn. auto.
Qed.

Lemma first_match_take id (l : list album) i a :
  first_match id l i a → no_match id (take i l).
Proof.
  intros (_ & _ & Hbefore) b [j Hj]%list_elem_of_lookup_1.
  apply lookup_take_Some in Hj as [Hj Hlt]. eauto.
Qed.

(** X6: after a PATCH that found its record, a GET with the same id answers
    200 with the merged record now stored, not with the payload the PATCH
    echoed. *)
Theorem updateAlbum_then_get (albums : list album) (id : string) (upd : album)
    (body : option album) (i : nat) (a : album) :
  first_match id albums i a →
  then_run updateAlbum (req id (Some upd)) getAlbumByID (req id body) albums
  = (<[i := merged a upd]> albums, ok_json (JAlbum (merged a upd))).
Proof.
  intros Hm. unfold then_run. rewrite (updateAlbum_found _ _ _ _ _ Hm). simpl.
  unfold getAlbumByID. rewrite Param_req.
  rewrite (getAlbumByID_loop_found id _ i (merged a upd)); [done |].
  apply (first_match_insert _ _ _ a); [done |]. simpl. apply Hm.
Qed.

Lemma updateAlbum_then_get_witness :
  snd (then_run updateAlbum (req "1" (Some patch_title))
         getAlbumByID (req "1" None) albums0)
  = ok_json (JAlbum {| ID := "1"; Title := "Blue Train (Remastered)";
                       Artist := "John Coltrane"; Price := 56.99%float |}).
Proof.
  rewrite (updateAlbum_then_get albums0 "1" patch_title None 0
             {| ID := "1"; Title := "Blue Train"; Artist := "John Coltrane";
                Price := 56.99%float |}).
  - reflexivity.
  - by apply first_match_of_index.
Defined.

(** X7: after a PUT that found its record and whose payload carries the path
    id, a GET with that id answers 200 with the payload. *)
Theorem overwriteAlbum_then_get (albums : list album) (id : string)
    (upd : album) (body : option album) (i : nat) (a : album) :
  first_match id albums i a → ID upd = id →
  then_run overwriteAlbum (req id (Some upd)) getAlbumByID (req id body) albums
  = (<[i := upd]> albums, ok_json (JAlbum upd)).
Proof.
  intros Hm Hid. unfold then_run. rewrite (overwriteAlbum_found _ _ _ _ _ Hm).
  simpl. unfold getAlbumByID. rewrite Param_req.
  rewrite (getAlbumByID_loop_found id _ i upd); [done |].
  by apply (first_match_insert _ _ _ a).
Qed.

Lemma overwriteAlbum_then_get_witness :
  snd (then_run overwriteAlbum (req "2" (Some put_2))
         getAlbumByID (req "2" None) albums0)
  = ok_json (JAlbum put_2).
Proof.
  rewrite (overwriteAlbum_then_get albums0 "2" put_2 None 1
             {| ID := "2"; Title := "Jeru"; Artist := "Gerry Mulligan";
                Price := 17.99%float |}).
  - reflexivity.
  - by apply first_match_of_index.
  - reflexivity.
Defined.



(** X9: when no stored record has the new record's id, POST followed by
    DELETE with that id answers 200 and gives back the slice as it was before
    the POST. *)
Theorem postAlbums_then_delete (albums : list album) (r : album)
    (body : option album) :
  no_match (ID r) albums →
  then_run postAlbums (req_body r) deleteAlbum (req (ID r) body) albums
  = (albums, ok_json (H [("message", "album deleted")])).
Proof.
  intros Hn. unfold then_run. simpl.
  rewrite (deleteAlbum_found _ _ _ (length albums) r).
  - by rewrite (delete_middle albums [] r), app_nil_r.
  - split_and!; [by apply list_lookup_middle | done |].
    intros j b Hj Hb. rewrite lookup_app_l in Hb by done.
    apply Hn. by eapply list_elem_of_lookup_2.
Qed.

Lemma postAlbums_then_delete_witness :
  then_run postAlbums (req_body betty_carter) deleteAlbum (req "4" None) albums0
  = (albums0, ok_json (H [("message", "album deleted")])).
Proof.
  apply (postAlbums_then_delete albums0 betty_carter None).
  apply index_of_None. reflexivity.
Defined.

(** X10: on a slice with unique ids, after a DELETE that found its record, a
    GET with the same id answers 404, and a second DELETE with the same id
    answers 404 and removes nothing. *)
Theorem deleteAlbum_then_gone (albums : list album) (id : string)
    (body : option album) (i : nat) (a : album) :
  unique_ids albums → first_match id albums i a →
  then_run deleteAlbum (req id body) getAlbumByID (req id body) albums
  = (delete i albums, Some not_found)
  ∧ then_run deleteAlbum (req id body) deleteAlbum (req id body) albums
    = (delete i albums, Some not_found).
Proof.
  intros Hu Hm. unfold then_run. rewrite (deleteAlbum_found _ _ _ _ _ Hm).
  simpl. destruct Hm as (Hi & <- & _).
  pose proof (unique_ids_delete_no_match _ _ _ Hu Hi) as Hn.
  unfold getAlbumByID, deleteAlbum. rewrite Param_req.
  by rewrite getAlbumByID_loop_none, deleteAlbum_loop_none.
Qed.

Lemma deleteAlbum_then_gone_witness :
  snd (then_run deleteAlbum (req "2" None) getAlbumByID (req "2" None) albums0)
  = Some not_found
  ∧ then_run deleteAlbum (req "2" None) deleteAlbum (req "2" None) albums0
    = (delete 1%nat albums0, Some not_found).
Proof.
  destruct (deleteAlbum_then_gone albums0 "2" None 1
              {| ID := "2"; Title := "Jeru"; Artist := "Gerry Mulligan";
                 Price := 17.99%float |}) as [Hget Hdel].
  - apply unique_ids_albums0.
  - by apply first_match_of_index.
  - split; [by rewrite Hget | done].
Defined.

(** X11: after a DELETE that found its record at index [i], a GET with the
    same id answers as the scan of the records that followed index [i]: with
    a later duplicate it answers 200 with the first later duplicate. *)
Theorem deleteAlbum_exposes_next (albums : list album) (id : string)
    (body : option album) (i : nat) (a : album) :
  first_match id albums i a →
  snd (then_run deleteAlbum (req id body) getAlbumByID (req id body) albums)
  = Some (getAlbumByID_loop id (drop (S i) albums)).
Proof.
  intros Hm. unfold then_run. rewrite (deleteAlbum_found _ _ _ _ _ Hm).
  simpl. rewrite Param_req, delete_take_drop.
  rewrite getAlbumByID_loop_skip; [done |]. by eapply first_match_take.
Qed.

Lemma deleteAlbum_exposes_next_witness :
  snd (then_run deleteAlbum (req "1" None) getAlbumByID (req "1" None)
         albums_dup)
  = ok_json (JAlbum {| ID := "1"; Title := "t3"; Artist := "r3";
                       Price := 4%float |}).
Proof.
  rewrite (deleteAlbum_exposes_next albums_dup "1" None 1
             {| ID := "1"; Title := "t1"; Artist := "r1"; Price := 2%float |}).
  - reflexivity.
  - by apply first_match_of_index.
Defined.

(** ** Requests on one id and reads of another *)

(** X12: a PATCH or a DELETE on one path id, whatever it finds and whatever
    its body, does not change what a GET with a different id answers. *)
Theorem other_id_unaffected (albums : list album) (id id' : string)
    (body body' : option album) :
  id ≠ id' →
  snd (then_run updateAlbum (req id body) getAlbumByID (req id' body') albums)
  = snd (getAlbumByID (req id' body') albums)
  ∧ snd (then_run deleteAlbum (req id body) getAlbumByID (req id' body') albums)
    = snd (getAlbumByID (req id' body') albums).
Proof.
  intros Hne. unfold then_run, getAlbumByID, updateAlbum, deleteAlbum.
  rewrite !Param_req. simpl. split.
  - destruct body as [upd|]; [| done].
    destruct (updateAlbum_loop_cases id upd albums)
      as [(i & a & (Hi & Ha & _) & ->) | [_ ->]]; [| done].
    simpl. f_equal.
    apply (getAlbumByID_loop_insert_other _ _ _ a); simpl; congruence.
  - destruct (deleteAlbum_loop_cases id albums)
      as [(i & a & (Hi & Ha & _) & ->) | [_ ->]]; [| done].
    simpl. f_equal.
    apply (getAlbumByID_loop_delete_other _ _ _ a); congruence.
Qed.

Lemma other_id_unaffected_witness :
  snd (then_run deleteAlbum (req "1" None) getAlbumByID (req "2" None) albums0)
  = snd (getAlbumByID (req "2" None) albums0).
Proof.
  refine (proj2 (other_id_unaffected albums0 "1" "2" None None _)).
  discriminate.
Defined.

(** X13: a POST or a PUT whose payload does not carry the id [id'] does not
    change what a GET with [id'] answers, provided the PUT is not on path id
    [id'] itself. *)
Theorem other_id_unaffected_by_payload (albums : list album) (id id' : string)
    (upd : album) (body' : option album) :
  ID upd ≠ id' →
  snd (then_run postAlbums (req_body upd) getAlbumByID (req id' body') albums)
  = snd (getAlbumByID (req id' body') albums)
  ∧ (id ≠ id' →
     snd (then_run overwriteAlbum (req id (Some upd))
            getAlbumByID (req id' body') albums)
     = snd (getAlbumByID (req id' body') albums)).
Proof.
  intros Hne. unfold then_run, getAlbumByID, overwriteAlbum.
  rewrite !Param_req. simpl. split.
  - f_equal. by apply getAlbumByID_loop_app_other.
  - intros Hid.
    destruct (overwriteAlbum_loop_cases id upd albums)
      as [(i & a & (Hi & Ha & _) & ->) | [_ ->]]; [| done].
    simpl. f_equal.
    apply (getAlbumByID_loop_insert_other _ _ _ a); congruence.
Qed.

Lemma other_id_unaffected_by_payload_witness :
  snd (then_run postAlbums (req_body betty_carter)
         getAlbumByID (req "2" None) albums0)
  = snd (getAlbumByID (req "2" None) albums0)
  ∧ snd (then_run overwriteAlbum (req "1" (Some betty_carter))
           getAlbumByID (req "2" None) albums0)
    = snd (getAlbumByID (req "2" None) albums0).
Proof.
  destruct (other_id_unaffected_by_payload albums0 "1" "2" betty_carter None)
    as [Hpost Hput]; [discriminate |].
  split; [exact Hpost | apply Hput; discriminate].
Defined.

(** ** Unique ids *)

(** X14: on a slice with unique ids (such as the seeded one), every PATCH and
    every DELETE keeps them unique, a PUT keeps them unique when its payload
    carries the path id, and a POST keeps them unique exactly when no stored
    record has the new record's id. *)
Theorem unique_ids_kept (c : Context) (albums : list album) :
  unique_ids albums →
  unique_ids (fst (updateAlbum c albums))
  ∧ unique_ids (fst (deleteAlbum c albums))
  ∧ (∀ upd, BindJSON c = Some upd → ID upd = Param c "id" →
       unique_ids (fst (overwriteAlbum c albums)))
  ∧ (∀ r, BindJSON c = Some r →
       (unique_ids (fst (postAlbums c albums)) ↔ no_match (ID r) albums)).
Proof.
  intros Hu. unfold unique_ids in *. split_and!.
  - unfold updateAlbum. destruct (BindJSON c) as [upd|]; [| done].
    destruct (updateAlbum_loop_cases (Param c "id") upd albums)
      as [(i & a & (Hi & _) & ->) | [_ ->]]; [| done].
    simpl. rewrite list_fmap_insert, list_insert_id; [done |].
    by rewrite list_lookup_fmap, Hi.
  - unfold deleteAlbum.
    destruct (deleteAlbum_loop_cases (Param c "id") albums)
      as [(i & a & _ & ->) | [_ ->]]; [| done].
    simpl. rewrite list_fmap_delete.
    eapply sublist_NoDup; [done | apply sublist_delete].
  - intros upd Hb Hid. unfold overwriteAlbum. rewrite Hb.
    destruct (overwriteAlbum_loop_cases (Param c "id") upd albums)
      as [(i & a & (Hi & Ha & _) & ->) | [_ ->]]; [| done].
    simpl. rewrite list_fmap_insert, list_insert_id; [done |].
    rewrite list_lookup_fmap, Hi. simpl. congruence.
  - intros r Hb. unfold postAlbums. rewrite Hb. simpl.
    rewrite fmap_app, NoDup_app. simpl. split.
    + intros (_ & Hout & _) a Ha Hid.
      apply (Hout (ID a)).
      * apply list_elem_of_fmap. eauto.
      * rewrite Hid. apply list_elem_of_singleton. done.
    + intros Hn. split_and!; [done | | apply NoDup_singleton].
      intros x [a [-> Ha]]%list_elem_of_fmap Heq%list_elem_of_singleton.
      by apply (Hn a).
Qed.

Lemma unique_ids_kept_witness :
  unique_ids (fst (deleteAlbum (req "2" None) albums0))
  ∧ unique_ids (fst (postAlbums (req_body betty_carter) albums0)).
Proof.
  pose proof (unique_ids_kept (req "2" None) albums0 unique_ids_albums0)
    as (_ & Hdel & _).
  pose proof (unique_ids_kept (req_body betty_carter) albums0 unique_ids_albums0)
    as (_ & _ & _ & Hpost).
  split; [exact Hdel |].
  apply (Hpost betty_carter eq_refl). apply index_of_None. reflexivity.
Defined.

(** X15: on a slice with unique ids, a GET with the id of any stored record
    answers 200 with that very record. *)
Theorem getAlbumByID_unique (albums : list album) (a : album)
    (body : option album) :
  unique_ids albums → a ∈ albums →
  getAlbumByID (req (ID a) body) albums = (albums, ok_json (JAlbum a)).
Proof.
  intros Hu [i Hi]%list_elem_of_lookup_1. unfold getAlbumByID.
  rewrite Param_req.
  by rewrite (getAlbumByID_loop_found _ _ i a)
    by (by apply unique_ids_first_match).
Qed.

Lemma getAlbumByID_unique_witness :
  getAlbumByID (req "3" None) albums0
  = (albums0,
     ok_json (JAlbum {| ID := "3"; Title := "Sarah Vaughan and Clifford Brown";
                        Artist := "Sarah Vaughan"; Price := 39.99%float |})).
Proof.
  apply (getAlbumByID_unique albums0
           {| ID := "3"; Title := "Sarah Vaughan and Clifford Brown";
              Artist := "Sarah Vaughan"; Price := 39.99%float |} None).
  - apply unique_ids_albums0.
  - apply (list_elem_of_lookup_2 _ 2). reflexivity.
Defined.

(** ** More on PATCH and PUT *)

(** X16: running the same PATCH request twice gives the same slice and the
    same response as running it once. *)
Theorem updateAlbum_idempotent (c : Context) (albums : list album) :
  then_run updateAlbum c updateAlbum c albums = updateAlbum c albums.
Proof.
  unfold then_run, updateAlbum. destruct (BindJSON c) as [upd|]; [| done].
  set (id := Param c "id").
  destruct (updateAlbum_loop_cases id upd albums)
    as [(i & a & Hm & ->) | [Hn ->]]; simpl.
  - assert (first_match id (<[i := merged a upd]> albums) i (merged a upd))
      as Hm'.
    { apply (first_match_insert _ _ _ a); [done |]. simpl. apply Hm. }
    rewrite (updateAlbum_loop_found _ _ _ _ 0 i _ (merged a upd) Hm')
      by apply Hm'.
    simpl. by rewrite merged_idem, list_insert_insert_eq.
  - by apply updateAlbum_loop_none.
Qed.

(** X17: whatever the request, PATCH keeps each stored record's id, never
    turns a non-empty title or artist into an empty one, and never turns a
    price that compares unequal to zero into one that compares equal to
    zero. *)
Theorem updateAlbum_never_clears (c : Context) (albums : list album)
    (j : nat) (b : album) :
  albums !! j = Some b →
  ∃ b', fst (updateAlbum c albums) !! j = Some b'
    ∧ ID b' = ID b
    ∧ (Title b ≠ "" → Title b' ≠ "")
    ∧ (Artist b ≠ "" → Artist b' ≠ "")
    ∧ (PrimFloat.eqb (Price b) 0%float = false →
       PrimFloat.eqb (Price b') 0%float = false).
Proof.
  intros Hj. unfold updateAlbum.
  destruct (BindJSON c) as [upd|]; [| by exists b].
  destruct (updateAlbum_loop_cases (Param c "id") upd albums)
    as [(i & a & Hm & ->) | [_ ->]]; [| by exists b].
  simpl. destruct (decide (i = j)) as [-> | Hij].
  - destruct Hm as (Hi & _). rewrite Hj in Hi. injection Hi as <-.
    exists (merged b upd).
    rewrite list_lookup_insert_eq by (by eapply lookup_lt_Some).
    unfold merged. simpl. split_and!; try done.
    + destruct (String.eqb_spec (Title upd) ""); done.
    + destruct (String.eqb_spec (Artist upd) ""); done.
    + destruct (PrimFloat.eqb (Price upd) 0%float) eqn:Hp; done.
  - exists b. by rewrite list_lookup_insert_ne.
Qed.

Lemma updateAlbum_never_clears_witness :
  ∃ b', fst (updateAlbum (req "1" (Some patch_title)) albums0) !! 0%nat = Some b'
    ∧ ID b' = "1" ∧ Artist b' ≠ "".
Proof.
  destruct (updateAlbum_never_clears (req "1" (Some patch_title)) albums0 0
              {| ID := "1"; Title := "Blue Train"; Artist := "John Coltrane";
                 Price := 56.99%float |} eq_refl)
    as (b' & Hb' & Hid & _ & HA & _).
  exists b'. split_and!; [done | done |]. apply HA. discriminate.
Defined.

(** X18: the slice a PATCH leaves does not depend on the id its payload
    carries. *)
Theorem updateAlbum_ignores_payload_id (ps : list (string * string))
    (upd : album) (id2 : string) (albums : list album) :
  fst (updateAlbum {| Params := ps; BindJSON := Some upd |} albums)
  = fst (updateAlbum
           {| Params := ps;
              BindJSON := Some {| ID := id2; Title := Title upd;
                                  Artist := Artist upd; Price := Price upd |} |}
           albums).
Proof.
  unfold updateAlbum, Param. cbn [BindJSON Params].
  generalize (Param_from ps "id"). intros id.
  set (upd2 := {| ID := id2; Title := Title upd; Artist := Artist upd;
                  Price := Price upd |}).
  destruct (scan_cases id albums) as [(i & a & Hm) | Hn].
  - rewrite (updateAlbum_loop_found id upd _ _ 0 i _ a Hm) by apply Hm.
    by rewrite (updateAlbum_loop_found id upd2 _ _ 0 i _ a Hm) by apply Hm.
  - by rewrite !updateAlbum_loop_none.
Qed.

(** X19: a PATCH whose payload has an empty title, an empty artist and a
    price comparing equal to zero leaves the slice exactly as it was, found or
    not. *)
Theorem updateAlbum_empty_payload (ps : list (string * string)) (upd : album)
    (albums : list album) :
  empty_payload upd →
  fst (updateAlbum {| Params := ps; BindJSON := Some upd |} albums) = albums.
Proof.
  intros He. unfold updateAlbum. cbn [BindJSON].
  generalize (Param {| Params := ps; BindJSON := Some upd |} "id"). intros id.
  destruct (updateAlbum_loop_cases id upd albums)
    as [(i & a & (Hi & _) & ->) | [_ ->]]; [| done].
  simpl. rewrite merged_empty by done. by apply list_insert_id.
Qed.

Lemma updateAlbum_empty_payload_witness :
  fst (updateAlbum
         {| Params := [("id", "1")];
            BindJSON := Some {| ID := "1"; Title := ""; Artist := "";
                                Price := (-0)%float |} |} albums0)
  = albums0.
Proof.
  apply (updateAlbum_empty_payload [("id", "1")]
           {| ID := "1"; Title := ""; Artist := ""; Price := (-0)%float |}
           albums0).
  split_and!; reflexivity.
Defined.

(** X20: two PUTs on the same path id, the first with a payload carrying that
    id: the slice and the response are those of the second PUT alone. *)
Theorem overwriteAlbum_last_wins (albums : list album) (id : string)
    (upd1 upd2 : album) :
  ID upd1 = id →
  then_run overwriteAlbum (req id (Some upd1))
    overwriteAlbum (req id (Some upd2)) albums
  = overwriteAlbum (req id (Some upd2)) albums.
Proof.
  intros Hid. unfold then_run, overwriteAlbum. rewrite !Param_req. simpl.
  destruct (scan_cases id albums) as [(i & a & Hm) | Hn].
  - pose proof (first_match_insert _ _ _ _ upd1 Hm Hid) as Hm'.
    rewrite (overwriteAlbum_loop_found id upd1 _ _ 0 _ _ Hm). simpl.
    rewrite (overwriteAlbum_loop_found id upd2 _ _ 0 _ _ Hm').
    rewrite (overwriteAlbum_loop_found id upd2 _ _ 0 _ _ Hm). simpl.
    by rewrite list_insert_insert_eq.
  - rewrite (overwriteAlbum_loop_none id upd1) by done. simpl.
    done.
Qed.

Lemma overwriteAlbum_last_wins_witness :
  then_run overwriteAlbum (req "2" (Some put_2))
    overwriteAlbum (req "2" (Some put_7)) albums0
  = overwriteAlbum (req "2" (Some put_7)) albums0.
Proof.
  apply (overwriteAlbum_last_wins albums0 "2" put_2 put_7). reflexivity.
Defined.

(** ** Listing *)

(** X21: the list [getAlbums] answers with is the stored slice, and every
    record a GET by id answers with is a member of that list; a GET by id
    answers 404 only when no record of the list has the id. *)
Theorem getAlbums_covers_reads (c c' : Context) (albums : list album) :
  getAlbums c albums = (albums, ok_json (JAlbums albums))
  ∧ (∀ a, snd (getAlbumByID c' albums) = ok_json (JAlbum a) →
       a ∈ albums ∧ ID a = Param c' "id")
  ∧ (snd (getAlbumByID c' albums) = Some not_found →
     ∀ a, a ∈ albums → ID a ≠ Param c' "id").
Proof.
  unfold getAlbums, getAlbumByID. simpl. split; [done |].
  destruct (getAlbumByID_loop_cases (Param c' "id") albums)
    as [(i & a & (Hi & Ha & _) & ->) | [Hn ->]]; split.
  - intros b Hb. injection Hb as <-. split; [| done].
    by eapply list_elem_of_lookup_2.
  - discriminate.
  - discriminate.
  - done.
Qed.
